(** * examples/circular-deps: two translation units that call each other

    [package-a/package-a.c] defines [package_a_function] and a [main];
    [package-b/package-b.c] defines [package_b_function] and a [main].
    Each function prints one fixed line with [printf] and then calls the
    function of the other file, which it knows through an [extern]
    declaration only.

    The two files are embedded as interaction trees.  A call through an
    [extern] declaration is an event of [symbolE]; the linker resolves it
    ([link]) and the mutual recursion is tied with [interp_mrec].  What the
    C library and the data segment offer to a translation unit is the event
    type [envE], given meaning on a [world] by [handle].  Executions are
    observed with the fuelled function [run]. *)

From Stdlib Require Import String Ascii List ZArith Lia Morphisms Setoid.
From ITree Require Import ITree ITreeFacts.
From Paco Require Import paco.
Import ITreeNotations ListNotations.

Local Open Scope itree_scope.
Local Open Scope list_scope.
Local Open Scope string_scope.

(* ===================================================================== *)
(** ** The environment of a hosted C program *)
(* ===================================================================== *)

(** Everything a running program can observe or change outside its call
    stack: the bytes written to standard output so far, the bytes still to
    be read from standard input, and the objects with static storage. *)
Record world : Type := mkWorld {
  stdout : string;
  stdin : list Z;
  globals : list (string * Z)
}.

(** Run-time errors of the abstract machine. *)
Variant fault : Type :=
| Undeclared (x : string)
| MissingArgument (fmt : string).

(** The services of [<stdio.h>] and of the data segment.  [Printf fmt] is
    a call of [printf] with the format as its only argument; it answers
    the number of characters written. *)
Variant envE : Type -> Type :=
| Printf (fmt : string) : envE Z
| Getchar : envE Z
| ReadGlobal (x : string) : envE Z
| AssignGlobal (x : string) (v : Z) : envE unit.

(** The line terminator, written [\n] in the C sources. *)
Definition LF : ascii := "010"%char.
Definition newline : string := String LF "".

(** A format holding [%] asks for an argument that a one-argument call of
    [printf] does not supply. *)
Fixpoint has_conversion (fmt : string) : bool :=
  match fmt with
  | "" => false
  | String c rest => (Ascii.eqb c "%"%char || has_conversion rest)%bool
  end.

Fixpoint lookup (x : string) (g : list (string * Z)) : option Z :=
  match g with
  | [] => None
  | (y, v) :: g' => if String.eqb x y then Some v else lookup x g'
  end.

Fixpoint update (x : string) (v : Z) (g : list (string * Z)) : list (string * Z) :=
  match g with
  | [] => []
  | (y, u) :: g' =>
      if String.eqb x y then (y, v) :: g' else (y, u) :: update x v g'
  end.

Definition write (s : string) (w : world) : world :=
  mkWorld (stdout w ++ s) (stdin w) (globals w).

(** Meaning of one event on the world: a fault, or the new world with the
    answer handed back to the program. *)
Definition handle {T : Type} (e : envE T) (w : world) : fault + world * T :=
  match e in envE T0 return fault + world * T0 with
  | Printf fmt =>
      if has_conversion fmt then inl (MissingArgument fmt)
      else inr (write fmt w, Z.of_nat (String.length fmt))
  | Getchar =>
      match stdin w with
      | [] => inr (w, (-1)%Z)
      | c :: rest => inr (mkWorld (stdout w) rest (globals w), c)
      end
  | ReadGlobal x =>
      match lookup x (globals w) with
      | Some v => inr (w, v)
      | None => inl (Undeclared x)
      end
  | AssignGlobal x v =>
      match lookup x (globals w) with
      | Some _ => inr (mkWorld (stdout w) (stdin w) (update x v (globals w)), tt)
      | None => inl (Undeclared x)
      end
  end.

(* ===================================================================== *)
(** ** The two translation units *)
(* ===================================================================== *)

(** The externally linkable function symbols; both have type
    [void f(void)]. *)
Variant symbolE : Type -> Type :=
| sym_package_a_function : symbolE unit
| sym_package_b_function : symbolE unit.

(** What a function body may do: call a symbol, or use the environment. *)
Definition unitE : Type -> Type := symbolE +' envE.

(** package-a/package-a.c *)
Module PackageA.

Definition message : string := "Package A function called".

(** [extern void package_b_function(void);] *)
Definition package_b_function : itree unitE unit :=
  trigger sym_package_b_function.

Definition package_a_function : itree unitE unit :=
  trigger (Printf (message ++ newline)) ;;
  package_b_function.

Definition main : itree unitE Z :=
  trigger sym_package_a_function ;;
  Ret 0%Z.

End PackageA.

(** package-b/package-b.c *)
Module PackageB.

Definition message : string := "Package B function called".

(** [extern void package_a_function(void);] *)
Definition package_a_function : itree unitE unit :=
  trigger sym_package_a_function.

Definition package_b_function : itree unitE unit :=
  trigger (Printf (message ++ newline)) ;;
  package_a_function.

Definition main : itree unitE Z :=
  trigger sym_package_b_function ;;
  Ret 0%Z.

End PackageB.

(* ===================================================================== *)
(** ** Linking *)
(* ===================================================================== *)

(** Symbol resolution: each symbol is bound to the one definition of it
    among the two object files. *)
Definition link : symbolE ~> itree unitE :=
  fun _ s =>
    match s with
    | sym_package_a_function => PackageA.package_a_function
    | sym_package_b_function => PackageB.package_b_function
    end.
Arguments link [T] s.

(** A piece of code with all its calls resolved through a symbol table. *)
Definition resolved (table : symbolE ~> itree unitE) {R : Type}
    (t : itree unitE R) : itree envE R :=
  interp_mrec table t.

(** The linked functions, and the two programs one obtains by keeping
    the [main] of one file. *)
Definition package_a_function : itree envE unit := mrec link sym_package_a_function.
Definition package_b_function : itree envE unit := mrec link sym_package_b_function.
Definition main_a : itree envE Z := resolved link PackageA.main.
Definition main_b : itree envE Z := resolved link PackageB.main.

(* ===================================================================== *)
(** ** Execution *)
(* ===================================================================== *)

Variant status (R : Type) : Type :=
| Running
| Returned (r : R)
| Faulted (f : fault).
Arguments Running {R}.
Arguments Returned {R} r.
Arguments Faulted {R} f.

Record outcome (R : Type) : Type := mkOutcome {
  final : world;
  result : status R
}.
Arguments mkOutcome {R} final result.
Arguments final {R} o.
Arguments result {R} o.

(** [run n t w] executes at most [n] steps of [t] from the world [w].  A
    step is a silent step, the handling of one event, or the return. *)
Fixpoint run {R : Type} (n : nat) (t : itree envE R) (w : world) : outcome R :=
  match n with
  | O => mkOutcome w Running
  | S n' =>
      match observe t with
      | RetF r => mkOutcome w (Returned r)
      | TauF t' => run n' t' w
      | VisF e k =>
          match handle e w with
          | inl f => mkOutcome w (Faulted f)
          | inr (w', x) => run n' (k x) w'
          end
      end
  end.

(** Whether an execution has ended in a run-time error. *)
Definition faulted {R : Type} (o : outcome R) : bool :=
  match result o with
  | Faulted _ => true
  | _ => false
  end.

(** The text of a string after its first [n] characters. *)
Fixpoint skip (n : nat) (s : string) : string :=
  match n, s with
  | O, _ => s
  | S n', String _ s' => skip n' s'
  | S _, "" => ""
  end.

(** What the first [n] steps of [t] have added to standard output. *)
Definition emitted {R : Type} (n : nat) (t : itree envE R) (w : world) : string :=
  skip (String.length (stdout w)) (stdout (final (run n t w))).

(** The complete lines of a text, without their terminators. *)
Fixpoint lines_from (cur : string) (s : string) : list string :=
  match s with
  | "" => []
  | String c s' =>
      if Ascii.eqb c LF then cur :: lines_from "" s'
      else lines_from (cur ++ String c "") s'
  end.

Definition lines (s : string) : list string := lines_from "" s.

(** [j] lines, alternately [a] and [b], starting with [a]. *)
Fixpoint alternating (a b : string) (j : nat) : list string :=
  match j with
  | O => []
  | S j' => a :: alternating b a j'
  end.

(** The same lines as written by [printf]: each followed by a newline. *)
Fixpoint text (ls : list string) : string :=
  match ls with
  | [] => ""
  | l :: ls' => l ++ newline ++ text ls'
  end.

(* ===================================================================== *)
(** ** Vocabulary of the statements *)
(* ===================================================================== *)

(** The line a function prints, and the symbol it calls afterwards. *)
Definition message_of {T : Type} (s : symbolE T) : string :=
  match s with
  | sym_package_a_function => PackageA.message
  | sym_package_b_function => PackageB.message
  end.

Definition callee {T : Type} (s : symbolE T) : symbolE T :=
  match s in symbolE T0 return symbolE T0 with
  | sym_package_a_function => sym_package_b_function
  | sym_package_b_function => sym_package_a_function
  end.

(** A text that fits on one line: it holds no line terminator. *)
Fixpoint one_line (s : string) : bool :=
  match s with
  | "" => true
  | String c s' => (negb (Ascii.eqb c LF) && one_line s')%bool
  end.

(** The output of [j] calls in a row, the first of them a call of [s]. *)
Definition printed {T : Type} (s : symbolE T) (j : nat) : string :=
  text (alternating (message_of s) (message_of (callee s)) j).

(** A freshly started process with nothing to read, and a world in the
    middle of a session. *)
Definition fresh : world := mkWorld "" [] [].
Definition busy : world :=
  mkWorld "$ " [104%Z; 105%Z; 10%Z] [("verbose", 1%Z); ("jobs", 4%Z)].

(** A symbol table whose two functions return at once, as when the
    program is linked against stubs. *)
Definition stubs : symbolE ~> itree unitE :=
  fun _ s =>
    match s with
    | sym_package_a_function => Ret tt
    | sym_package_b_function => Ret tt
    end.
Arguments stubs [T] s.

(* ===================================================================== *)
(** ** Further vocabulary *)
(* ===================================================================== *)

(** The line of the other file: exchanges the two messages. *)
Definition mirror (l : string) : string :=
  if String.eqb l PackageA.message then PackageB.message
  else if String.eqb l PackageB.message then PackageA.message
  else l.

(** package-a.c linked against a [package_b_function] that returns at
    once, and package-b.c against such a [package_a_function]: the cycle
    is cut on one side. *)
Definition link_a_only : symbolE ~> itree unitE :=
  fun _ s =>
    match s with
    | sym_package_a_function => PackageA.package_a_function
    | sym_package_b_function => Ret tt
    end.
Arguments link_a_only [T] s.

Definition link_b_only : symbolE ~> itree unitE :=
  fun _ s =>
    match s with
    | sym_package_a_function => Ret tt
    | sym_package_b_function => PackageB.package_b_function
    end.
Arguments link_b_only [T] s.

(* ===================================================================== *)
(** ** The call stack *)
(* ===================================================================== *)

(** The run-time system keeps one frame per function that has been called
    and has not returned yet. *)
Variant frameE : Type -> Type :=
| Enter : frameE unit
| Leave : frameE unit.

(** What resolved code does on a machine that shows its frames. *)
Definition machineE : Type -> Type := frameE +' envE.

(** The code of a translation unit, placed on that machine. *)
Definition lift : unitE ~> symbolE +' machineE :=
  fun _ e =>
    match e with
    | inl1 s => inl1 s
    | inr1 e' => inr1 (inr1 e')
    end.

(** A function body runs in a frame of its own, entered before its first
    statement and left when it returns. *)
Definition in_frame {T : Type} (body : itree unitE T) : itree (symbolE +' machineE) T :=
  trigger Enter ;;
  r <- translate lift body ;;
  trigger Leave ;;
  Ret r.

Definition framed (table : symbolE ~> itree unitE) : symbolE ~> itree (symbolE +' machineE) :=
  fun _ s => in_frame (table _ s).

(** A program on the machine with frames: its entry point is called by
    the run-time system and its calls are resolved by [link]. *)
Definition with_frames {R : Type} (entry : itree unitE R) : itree machineE R :=
  interp_mrec (framed link) (in_frame entry).

(** Meaning of one event on the depth of the call stack and the world. *)
Definition handle_frames {T : Type} (e : machineE T) (d : nat) (w : world)
  : fault + nat * world * T :=
  match e with
  | inl1 f =>
      match f in frameE T0 return fault + nat * world * T0 with
      | Enter => inr (S d, w, tt)
      | Leave => inr (Nat.pred d, w, tt)
      end
  | inr1 e' =>
      match handle e' w with
      | inl f => inl f
      | inr (w', x) => inr (d, w', x)
      end
  end.

(** [run_frames n t d w] executes at most [n] steps of [t] from a stack
    of depth [d] and the world [w]; it answers the depth reached together
    with the outcome. *)
Fixpoint run_frames {R : Type} (n : nat) (t : itree machineE R) (d : nat) (w : world)
  : nat * outcome R :=
  match n with
  | O => (d, mkOutcome w Running)
  | S n' =>
      match observe t with
      | RetF r => (d, mkOutcome w (Returned r))
      | TauF t' => run_frames n' t' d w
      | VisF e k =>
          match handle_frames e d w with
          | inl f => (d, mkOutcome w (Faulted f))
          | inr (d', w', x) => run_frames n' (k x) d' w'
          end
      end
  end.

(** What the first [n] steps have added to standard output, on the
    machine with frames. *)
Definition emitted_frames {R : Type} (n : nat) (t : itree machineE R)
    (d : nat) (w : world) : string :=
  skip (String.length (stdout w)) (stdout (final (snd (run_frames n t d w)))).

(* ===================================================================== *)
(** ** Sample executions *)
(* ===================================================================== *)

Example main_a_eight_steps :
  run 8 main_a fresh
  = mkOutcome
      (mkWorld (text ["Package A function called";
                      "Package B function called";
                      "Package A function called"]) [] [])
      Running.
Proof. reflexivity. Qed.

Example main_b_five_steps :
  lines (emitted 5 main_b busy)
  = ["Package B function called"; "Package A function called"].
Proof. reflexivity. Qed.

Example main_against_stubs :
  run 3 (resolved stubs PackageA.main) busy = mkOutcome busy (Returned 0%Z).
Proof. reflexivity. Qed.

(** The machine does have faults and does let programs read and assign;
    the two translation units just never get there. *)
Example printf_without_argument :
  run 1 (ITree.trigger (Printf "%d")) fresh
  = mkOutcome fresh (Faulted (MissingArgument "%d")).
Proof. reflexivity. Qed.

Example undeclared_object :
  faulted (run 1 (ITree.trigger (ReadGlobal "count")) busy) = true.
Proof. reflexivity. Qed.

Example assignment_changes_globals :
  globals (final (run 2 (ITree.trigger (AssignGlobal "jobs" 8%Z)) busy))
  = [("verbose", 1%Z); ("jobs", 8%Z)].
Proof. reflexivity. Qed.

Example getchar_consumes_input :
  stdin (final (run 2 (ITree.trigger Getchar) busy)) = [105%Z; 10%Z].
Proof. reflexivity. Qed.

(* ===================================================================== *)
(** ** Strings and lines *)
(* ===================================================================== *)

Section Strings.

Lemma append_empty_r (s : string) : s ++ "" = s.
Proof. induction s as [|c s IH]; cbn; [reflexivity | now rewrite IH]. Qed.

Lemma append_assoc (a b c : string) : (a ++ b) ++ c = a ++ (b ++ c).
Proof. induction a as [|x a IH]; cbn; [reflexivity | now rewrite IH]. Qed.

Lemma skip_append (a b : string) : skip (String.length a) (a ++ b) = b.
Proof. induction a as [|x a IH]; cbn; [now destruct b | exact IH]. Qed.

Lemma lines_from_line (l : string) :
  one_line l = true ->
  forall cur rest,
    lines_from cur (l ++ newline ++ rest) = (cur ++ l) :: lines rest.
Proof.
  induction l as [|c l IH]; cbn [one_line]; intros Hl cur rest.
  - cbn. now rewrite append_empty_r.
  - apply andb_prop in Hl as [Hc Hl].
    apply Bool.negb_true_iff in Hc.
    cbn [append lines_from]. rewrite Hc, (IH Hl), append_assoc. reflexivity.
Qed.

Lemma lines_text (ls : list string) :
  Forall (fun l => one_line l = true) ls -> lines (text ls) = ls.
Proof.
  induction 1 as [|l ls Hl _ IH]; [reflexivity|].
  cbn [text]. unfold lines at 1.
  rewrite (lines_from_line l Hl). cbn. now rewrite IH.
Qed.

Lemma alternating_Forall (P : string -> Prop) (a b : string) :
  P a -> P b -> forall j, Forall P (alternating a b j).
Proof.
  intros Ha Hb j. revert a b Ha Hb.
  induction j as [|j IH]; intros a b Ha Hb; cbn; constructor; auto.
Qed.

Lemma alternating_length (a b : string) (j : nat) :
  List.length (alternating a b j) = j.
Proof. revert a b. induction j as [|j IH]; intros a b; cbn; auto. Qed.

Lemma alternating_even (a b : string) (k : nat) :
  forall j l, nth_error (alternating a b j) (2 * k) = Some l -> l = a.
Proof.
  induction k as [|k IH]; intros j l H.
  - destruct j; cbn in H; congruence.
  - replace (2 * S k) with (S (S (2 * k))) in H by lia.
    destruct j as [|[|j]]; cbn [alternating nth_error] in H.
    + discriminate.
    + destruct (2 * k); discriminate.
    + now apply IH in H.
Qed.

Lemma alternating_odd (a b : string) (k : nat) :
  forall j l, nth_error (alternating a b j) (2 * k + 1) = Some l -> l = b.
Proof.
  intros j l H. replace (2 * k + 1) with (S (2 * k)) in H by lia.
  destruct j as [|j]; cbn [alternating nth_error] in H; [discriminate|].
  now apply alternating_even in H.
Qed.

Lemma alternating_firstn (a b : string) (j : nat) :
  2 <= j -> firstn 2 (alternating a b j) = [a; b].
Proof. destruct j as [|[|j]]; intros H; [lia | lia | reflexivity]. Qed.

End Strings.

Lemma message_one_line {T : Type} (s : symbolE T) : one_line (message_of s) = true.
Proof. now destruct s. Qed.

Lemma message_plain {T : Type} (s : symbolE T) :
  has_conversion (message_of s ++ newline) = false.
Proof. now destruct s. Qed.

Lemma callee_callee {T : Type} (s : symbolE T) : callee (callee s) = s.
Proof. now destruct s. Qed.

Lemma lines_printed {T : Type} (s : symbolE T) (j : nat) :
  lines (printed s j) = alternating (message_of s) (message_of (callee s)) j.
Proof.
  apply lines_text, alternating_Forall; apply message_one_line.
Qed.

Lemma printed_succ {T : Type} (s : symbolE T) (j : nat) :
  printed s (S j) = (message_of s ++ newline) ++ printed (callee s) j.
Proof.
  unfold printed. cbn [alternating text].
  now rewrite callee_callee, append_assoc.
Qed.

Lemma printed_one {T : Type} (s : symbolE T) :
  printed s 1 = message_of s ++ newline.
Proof. rewrite printed_succ. apply append_empty_r. Qed.

(* ===================================================================== *)
(** ** Executions and tree equality *)
(* ===================================================================== *)

(** Strongly bisimilar trees run alike. *)
Lemma run_eq_itree {R : Type} (n : nat) :
  forall (t1 t2 : itree envE R) (w : world),
    t1 ≅ t2 -> run n t1 w = run n t2 w.
Proof.
  induction n as [|n IH]; intros t1 t2 w H; [reflexivity|].
  cbn [run]. punfold H. red in H.
  inversion H as [r1 r2 REL | m1 m2 REL | X e k1 k2 REL | |]; try discriminate.
  - now subst.
  - apply IH. now pclearbot.
  - destruct (handle e w) as [f | [w' x]]; [reflexivity|].
    apply IH. specialize (REL x). now pclearbot.
Qed.

#[global] Instance run_Proper {R : Type} (n : nat) :
  Proper (eq_itree eq ==> eq ==> eq) (@run R n).
Proof. intros t1 t2 H w ? <-. now apply run_eq_itree. Qed.

(** A computation that returns hands over to its continuation: the steps
    of [t] before its return are the first steps of [t >>= k]. *)
Lemma run_bind_returned {R U : Type} (k : R -> itree envE U) (n : nat) :
  forall (t : itree envE R) (w w' : world) (r : R),
    run n t w = mkOutcome w' (Returned r) ->
    exists p, p < n /\
      forall m, run (p + m) (ITree.bind t k) w = run m (k r) w'.
Proof.
  induction n as [|n IH]; intros t w w' r H; [discriminate|].
  cbn [run] in H. destruct (observe t) as [r0 | t0 | X e k0] eqn:E.
  - injection H as <- <-. exists 0. split; [lia|]. intros m.
    rewrite unfold_bind, E. reflexivity.
  - destruct (IH _ _ _ _ H) as [p [Hp Hrun]].
    exists (S p). split; [lia|]. intros m.
    rewrite unfold_bind, E. cbn. apply Hrun.
  - destruct (handle e w) as [f | [w1 x]] eqn:Eh; [discriminate|].
    destruct (IH _ _ _ _ H) as [p [Hp Hrun]].
    exists (S p). split; [lia|]. intros m.
    rewrite unfold_bind, E. cbn [plus run observe _observe].
    rewrite Eh. apply Hrun.
Qed.

(** No event makes standard output shorter or rewrites it. *)
Lemma run_stdout_extends {R : Type} (n : nat) :
  forall (t : itree envE R) (w : world),
    exists out, stdout (final (run n t w)) = stdout w ++ out.
Proof.
  induction n as [|n IH]; intros t w; cbn [run].
  - exists "". cbn. now rewrite append_empty_r.
  - destruct (observe t) as [r | t' | X e k].
    + exists "". cbn. now rewrite append_empty_r.
    + apply IH.
    + destruct (handle e w) as [f | [w1 x]] eqn:Eh.
      * exists "". cbn. now rewrite append_empty_r.
      * destruct (IH (k x) w1) as [out Hout]. rewrite Hout.
        destruct e; cbn in Eh.
        -- destruct (has_conversion fmt); [discriminate|].
           injection Eh as <- <-. cbn. exists (fmt ++ out).
           apply append_assoc.
        -- destruct (stdin w); injection Eh as <- <-; now exists out.
        -- destruct (lookup x0 (globals w)); [|discriminate].
           injection Eh as <- <-. now exists out.
        -- destruct (lookup x0 (globals w)); [|discriminate].
           injection Eh as <- <-. now exists out.
Qed.

Lemma emitted_spec {R : Type} (n : nat) (t : itree envE R) (w : world) :
  stdout (final (run n t w)) = stdout w ++ emitted n t w.
Proof.
  unfold emitted. destruct (run_stdout_extends n t w) as [out ->].
  now rewrite skip_append.
Qed.

(* ===================================================================== *)
(** ** Resolution of calls *)
(* ===================================================================== *)

Section Resolution.

Context {R : Type} (table : symbolE ~> itree unitE).

(** A call of a symbol is one silent step into the body bound to it. *)
Lemma resolved_call {T : Type} (s : symbolE T) (k : T -> itree unitE R) :
  resolved table (ITree.bind (trigger s) k)
  ≅ Tau (resolved table (ITree.bind (table _ s) k)).
Proof.
  rewrite bind_trigger. unfold resolved.
  rewrite unfold_interp_mrec. reflexivity.
Qed.

(** A use of the environment stays visible. *)
Lemma resolved_event {T : Type} (e : envE T) (k : T -> itree unitE R) :
  resolved table (ITree.bind (trigger e) k)
  ≅ Vis e (fun x => Tau (resolved table (k x))).
Proof.
  rewrite bind_trigger. unfold resolved.
  rewrite unfold_interp_mrec. reflexivity.
Qed.

Lemma package_a_function_unfold (k : unit -> itree unitE R) :
  resolved table (ITree.bind PackageA.package_a_function k)
  ≅ Vis (Printf (PackageA.message ++ newline))
        (fun _ => Tau (Tau (resolved table
           (ITree.bind (table _ sym_package_b_function) k)))).
Proof.
  unfold PackageA.package_a_function, PackageA.package_b_function.
  rewrite bind_bind, resolved_event.
  apply eqit_Vis. intros z. apply eqit_Tau.
  apply resolved_call.
Qed.

Lemma package_b_function_unfold (k : unit -> itree unitE R) :
  resolved table (ITree.bind PackageB.package_b_function k)
  ≅ Vis (Printf (PackageB.message ++ newline))
        (fun _ => Tau (Tau (resolved table
           (ITree.bind (table _ sym_package_a_function) k)))).
Proof.
  unfold PackageB.package_b_function, PackageB.package_a_function.
  rewrite bind_bind, resolved_event.
  apply eqit_Vis. intros z. apply eqit_Tau.
  apply resolved_call.
Qed.

(** A resolved function is its body run in the empty calling context. *)
Lemma mrec_resolved {T : Type} (s : symbolE T) :
  mrec table s ≅ resolved table (ITree.bind (table _ s) (fun x => Ret x)).
Proof. unfold mrec, resolved. now rewrite bind_ret_r. Qed.

End Resolution.

(** [main] calls a function and returns 0: under any symbol table it is
    one silent step, the function, and the return. *)
Lemma main_unfold (table : symbolE ~> itree unitE) (s : symbolE unit) :
  resolved table (trigger s ;; Ret 0%Z)
  ≅ Tau (mrec table s ;; Ret 0%Z).
Proof.
  rewrite resolved_call. apply eqit_Tau.
  unfold resolved. rewrite interp_mrec_bind.
  eapply eqit_bind; [reflexivity|]. intros [].
  rewrite unfold_interp_mrec. reflexivity.
Qed.

(* ===================================================================== *)
(** ** Executions of the linked functions *)
(* ===================================================================== *)

(** In the linked program a call of [s], in whatever calling context [k],
    prints the line of [s] and becomes a call of the other function in the
    same context. *)
Lemma in_call_unfold {R T : Type} (s : symbolE T) (k : T -> itree unitE R) :
  resolved link (ITree.bind (link s) k)
  ≅ Vis (Printf (message_of s ++ newline))
        (fun _ => Tau (Tau (resolved link (ITree.bind (link (callee s)) k)))).
Proof.
  destruct s; cbn [link message_of callee].
  - apply package_a_function_unfold.
  - apply package_b_function_unfold.
Qed.

Lemma run_call_print {R T : Type} (s : symbolE T) (k : T -> itree unitE R)
    (n : nat) (w : world) :
  run (S n) (resolved link (ITree.bind (link s) k)) w
  = run n (Tau (Tau (resolved link (ITree.bind (link (callee s)) k))))
        (write (message_of s ++ newline) w).
Proof.
  rewrite in_call_unfold.
  cbn [run observe _observe handle]. now rewrite message_plain.
Qed.

(** The whole execution of a call: one more line every third step, never
    a return, never a fault, and nothing but standard output changes. *)
Lemma run_call {R T : Type} (n : nat) :
  forall (s : symbolE T) (k : T -> itree unitE R) (w : world),
    run n (resolved link (ITree.bind (link s) k)) w
    = mkOutcome
        (mkWorld (stdout w ++ printed s ((n + 2) / 3)) (stdin w) (globals w))
        Running.
Proof.
  induction n as [n IH] using lt_wf_ind. intros s k w.
  destruct n as [|n].
  - change ((0 + 2) / 3) with 0. unfold printed. cbn [alternating text run].
    rewrite append_empty_r. now destruct w.
  - rewrite run_call_print.
    destruct n as [|[|n]].
    + change ((1 + 2) / 3) with 1. now rewrite printed_one.
    + change ((2 + 2) / 3) with 1. now rewrite printed_one.
    + cbn [run observe _observe]. rewrite IH by lia.
      cbn [stdout stdin globals write].
      replace (S (S (S n)) + 2) with ((n + 2) + 1 * 3) by lia.
      rewrite Nat.div_add by lia.
      replace ((n + 2) / 3 + 1) with (S ((n + 2) / 3)) by lia.
      now rewrite printed_succ, append_assoc.
Qed.

Lemma run_function {T : Type} (s : symbolE T) (n : nat) (w : world) :
  run n (mrec link s) w
  = mkOutcome
      (mkWorld (stdout w ++ printed s ((n + 2) / 3)) (stdin w) (globals w))
      Running.
Proof. rewrite mrec_resolved. apply run_call. Qed.

Lemma run_main (s : symbolE unit) (n : nat) (w : world) :
  run n (resolved link (trigger s ;; Ret 0%Z)) w
  = mkOutcome
      (mkWorld (stdout w ++ printed s ((n + 1) / 3)) (stdin w) (globals w))
      Running.
Proof.
  destruct n as [|n].
  - change ((0 + 1) / 3) with 0. unfold printed. cbn [alternating text run].
    rewrite append_empty_r. now destruct w.
  - rewrite resolved_call. cbn [run observe _observe].
    rewrite run_call. now replace (S n + 1) with (n + 2) by lia.
Qed.

Lemma emitted_function {T : Type} (s : symbolE T) (n : nat) (w : world) :
  emitted n (mrec link s) w = printed s ((n + 2) / 3).
Proof. unfold emitted. rewrite run_function. apply skip_append. Qed.

Lemma emitted_main (s : symbolE unit) (n : nat) (w : world) :
  emitted n (resolved link (trigger s ;; Ret 0%Z)) w = printed s ((n + 1) / 3).
Proof. unfold emitted. rewrite run_main. apply skip_append. Qed.

Lemma printed_fixed {T : Type} (s : symbolE T) (j : nat) :
  exists ls,
    printed s j = text ls /\
    Forall (fun l => l = PackageA.message \/ l = PackageB.message) ls.
Proof.
  eexists. split; [reflexivity|].
  apply alternating_Forall; destruct s; cbn; auto.
Qed.

(* ===================================================================== *)
(** ** The properties of the two programs *)
(* ===================================================================== *)

(** C1, as amended.  Neither linked program ever returns from [main]:
    after any number of steps the execution is still running, and the
    number of lines written grows beyond every bound. *)
Theorem main_never_returns :
  (forall (n : nat) (w : world),
      result (run n main_a w) = Running /\ result (run n main_b w) = Running)
  /\
  (forall (k : nat) (w : world),
      exists n,
        k <= List.length (lines (emitted n main_a w)) /\
        k <= List.length (lines (emitted n main_b w))).
Proof.
  split.
  - intros n w. unfold main_a, main_b, PackageA.main, PackageB.main.
    now rewrite !run_main.
  - intros k w. exists (3 * k).
    unfold main_a, main_b, PackageA.main, PackageB.main.
    rewrite !emitted_main, !lines_printed, !alternating_length.
    replace (3 * k + 1) with (1 + k * 3) by lia.
    rewrite Nat.div_add by lia. cbn. lia.
Qed.

(** C1, refuted.  Started in a fresh process, the program whose entry
    point is the [main] of package-a.c never returns, and by its eighth
    step it has written a third line. *)
Lemma main_returns_counterexample :
  ~ (exists n r, result (run n main_a fresh) = Returned r) /\
  lines (emitted 8 main_a fresh)
  = ["Package A function called"; "Package B function called";
     "Package A function called"].
Proof.
  split; [|reflexivity].
  intros [n [r H]]. unfold main_a, PackageA.main in H.
  rewrite run_main in H. discriminate.
Qed.

(** C2.  The run from the [main] of package-a.c writes
    "Package A function called" as its first line and
    "Package B function called" as its second; the run from the [main] of
    package-b.c writes the same two lines in the reverse order. *)
Theorem first_two_lines (w : world) :
  (exists n0, forall n, n0 <= n ->
     firstn 2 (lines (emitted n main_a w))
     = ["Package A function called"; "Package B function called"])
  /\
  (exists n0, forall n, n0 <= n ->
     firstn 2 (lines (emitted n main_b w))
     = ["Package B function called"; "Package A function called"]).
Proof.
  split; exists 5; intros n Hn;
    unfold main_a, main_b, PackageA.main, PackageB.main;
    rewrite emitted_main, lines_printed;
    apply alternating_firstn;
    change 2 with (6 / 3); apply Nat.Div0.div_le_mono; lia.
Qed.

Lemma first_two_lines_witness :
  exists n,
    firstn 2 (lines (emitted n main_a busy))
    = ["Package A function called"; "Package B function called"].
Proof.
  destruct (first_two_lines busy) as [[n0 H] _].
  exists n0. apply H. apply le_n.
Defined.

(** C3.  Every call of [package_a_function], from any calling context and
    whatever the linker binds the other symbol to, first prints
    "Package A function called" and only then calls [package_b_function];
    every call of [package_b_function] first prints
    "Package B function called" and only then calls
    [package_a_function]. *)
Theorem print_then_call (R : Type) (table : symbolE ~> itree unitE)
    (k : unit -> itree unitE R) :
  resolved table (ITree.bind PackageA.package_a_function k)
  ≅ Vis (Printf ("Package A function called" ++ newline))
        (fun _ => Tau (resolved table
           (ITree.bind (trigger sym_package_b_function) k)))
  /\
  resolved table (ITree.bind PackageB.package_b_function k)
  ≅ Vis (Printf ("Package B function called" ++ newline))
        (fun _ => Tau (resolved table
           (ITree.bind (trigger sym_package_a_function) k))).
Proof.
  split.
  - rewrite package_a_function_unfold.
    apply eqit_Vis. intros z. apply eqit_Tau.
    symmetry. apply resolved_call.
  - rewrite package_b_function_unfold.
    apply eqit_Vis. intros z. apply eqit_Tau.
    symmetry. apply resolved_call.
Qed.

(** C4.  The entry point of each file invokes the function of its own
    file and nothing before it: under any symbol table, [main] of
    package-a.c is the call of [package_a_function] followed by the return
    of 0, [main] of package-b.c the call of [package_b_function] followed
    by the return of 0; and the linker binds each of the two symbols to the
    definition in the file of that [main]. *)
Theorem main_calls_local_function :
  (forall table : symbolE ~> itree unitE,
      resolved table PackageA.main
      ≅ Tau (mrec table sym_package_a_function ;; Ret 0%Z)
      /\
      resolved table PackageB.main
      ≅ Tau (mrec table sym_package_b_function ;; Ret 0%Z))
  /\ link sym_package_a_function = PackageA.package_a_function
  /\ link sym_package_b_function = PackageB.package_b_function.
Proof.
  split; [|split; reflexivity].
  intros table. split; apply main_unfold.
Qed.

(** C5.  A call of [package_a_function] or of [package_b_function] only
    appends fixed lines to standard output: after any number of steps,
    from any world, standard input and the static objects are as they
    were, and standard output is what it was followed by lines that each
    are one of the two messages. *)
Theorem calls_only_append_lines (n : nat) (w : world) :
  (stdin (final (run n package_a_function w)) = stdin w /\
   globals (final (run n package_a_function w)) = globals w /\
   exists ls,
     stdout (final (run n package_a_function w)) = stdout w ++ text ls /\
     Forall (fun l => l = "Package A function called"
                      \/ l = "Package B function called") ls)
  /\
  (stdin (final (run n package_b_function w)) = stdin w /\
   globals (final (run n package_b_function w)) = globals w /\
   exists ls,
     stdout (final (run n package_b_function w)) = stdout w ++ text ls /\
     Forall (fun l => l = "Package A function called"
                      \/ l = "Package B function called") ls).
Proof.
  unfold package_a_function, package_b_function.
  rewrite !run_function. cbn [final stdin globals stdout].
  split; (split; [reflexivity | split; [reflexivity|]]).
  - destruct (printed_fixed sym_package_a_function ((n + 2) / 3))
      as [ls [-> Hls]].
    now exists ls.
  - destruct (printed_fixed sym_package_b_function ((n + 2) / 3))
      as [ls [-> Hls]].
    now exists ls.
Qed.

(** C6.  No step of either function or of either [main] ends in a
    run-time error. *)
Theorem no_fault (n : nat) (w : world) :
  faulted (run n package_a_function w) = false /\
  faulted (run n package_b_function w) = false /\
  faulted (run n main_a w) = false /\
  faulted (run n main_b w) = false.
Proof.
  unfold package_a_function, package_b_function.
  unfold main_a, main_b, PackageA.main, PackageB.main.
  rewrite !run_function, !run_main.
  repeat split; reflexivity.
Qed.

(** C7.  The programs hold no data state: after any prefix of an
    execution of either program the world is the initial one except for
    what was added to standard output. *)
Theorem no_data_state (n : nat) (w : world) :
  final (run n main_a w)
  = mkWorld (stdout w ++ emitted n main_a w) (stdin w) (globals w)
  /\
  final (run n main_b w)
  = mkWorld (stdout w ++ emitted n main_b w) (stdin w) (globals w).
Proof.
  unfold main_a, main_b, PackageA.main, PackageB.main.
  rewrite !emitted_main, !run_main. split; reflexivity.
Qed.

(** C8.  In the run that starts from [package_a_function], whenever a
    line of odd rank (2k+1) has been written it is
    "Package A function called", and whenever a line of even rank (2k+2)
    has been written it is "Package B function called"; in the run that
    starts from [package_b_function] the two messages are swapped. *)
Theorem lines_alternate (n : nat) (w : world) (k : nat) (l : string) :
  (nth_error (lines (emitted n package_a_function w)) (2 * k) = Some l ->
   l = "Package A function called")
  /\
  (nth_error (lines (emitted n package_a_function w)) (2 * k + 1) = Some l ->
   l = "Package B function called")
  /\
  (nth_error (lines (emitted n package_b_function w)) (2 * k) = Some l ->
   l = "Package B function called")
  /\
  (nth_error (lines (emitted n package_b_function w)) (2 * k + 1) = Some l ->
   l = "Package A function called").
Proof.
  unfold package_a_function, package_b_function.
  rewrite !emitted_function, !lines_printed.
  cbn [message_of callee].
  repeat split; intros H.
  - exact (alternating_even _ _ _ _ _ H).
  - exact (alternating_odd _ _ _ _ _ H).
  - exact (alternating_even _ _ _ _ _ H).
  - exact (alternating_odd _ _ _ _ _ H).
Qed.

Lemma lines_alternate_witness :
  nth_error (lines (emitted 10 package_a_function busy)) (2 * 1)
  = Some "Package A function called"
  /\
  nth_error (lines (emitted 10 package_a_function busy)) (2 * 1 + 1)
  = Some "Package B function called"
  /\
  nth_error (lines (emitted 10 package_b_function busy)) (2 * 1)
  = Some "Package B function called"
  /\
  nth_error (lines (emitted 10 package_b_function busy)) (2 * 1 + 1)
  = Some "Package A function called".
Proof.
  assert (Ha : nth_error (lines (emitted 10 package_a_function busy)) (2 * 1)
               = Some "Package A function called") by reflexivity.
  assert (Hb : nth_error (lines (emitted 10 package_a_function busy)) (2 * 1 + 1)
               = Some "Package B function called") by reflexivity.
  assert (Hc : nth_error (lines (emitted 10 package_b_function busy)) (2 * 1)
               = Some "Package B function called") by reflexivity.
  assert (Hd : nth_error (lines (emitted 10 package_b_function busy)) (2 * 1 + 1)
               = Some "Package A function called") by reflexivity.
  pose proof (proj1 (lines_alternate 10 busy 1 _) Ha) as Ea.
  pose proof (proj1 (proj2 (lines_alternate 10 busy 1 _)) Hb) as Eb.
  pose proof (proj1 (proj2 (proj2 (lines_alternate 10 busy 1 _))) Hc) as Ec.
  pose proof (proj2 (proj2 (proj2 (lines_alternate 10 busy 1 _))) Hd) as Ed.
  repeat split; assumption.
Defined.

(** C9.  The programs consult neither their input nor the rest of their
    environment: two runs from the same entry point write the same text,
    step for step, whatever the worlds they start in. *)
Theorem output_independent_of_world (n : nat) (w1 w2 : world) :
  emitted n main_a w1 = emitted n main_a w2 /\
  emitted n main_b w1 = emitted n main_b w2.
Proof.
  unfold main_a, main_b, PackageA.main, PackageB.main.
  now rewrite !emitted_main.
Qed.

(** C10.  In both programs, under any symbol table, if the call made by
    [main] returns then [main] returns 0, in the world the call left. *)
Theorem main_returns_zero (table : symbolE ~> itree unitE)
    (n : nat) (w w' : world) (r : unit) :
  (run n (mrec table sym_package_a_function) w = mkOutcome w' (Returned r) ->
   exists m, run m (resolved table PackageA.main) w
             = mkOutcome w' (Returned 0%Z))
  /\
  (run n (mrec table sym_package_b_function) w = mkOutcome w' (Returned r) ->
   exists m, run m (resolved table PackageB.main) w
             = mkOutcome w' (Returned 0%Z)).
Proof.
  split; intros H;
    apply (run_bind_returned (fun _ : unit => Ret 0%Z)) in H
      as [p [_ Hrun]];
    exists (S (p + 1));
    unfold PackageA.main, PackageB.main;
    rewrite main_unfold; cbn [run observe _observe];
    rewrite Hrun; reflexivity.
Qed.

Lemma main_returns_zero_witness :
  (run 1 (mrec stubs sym_package_a_function) busy = mkOutcome busy (Returned tt)
   /\ exists m, run m (resolved stubs PackageA.main) busy
                = mkOutcome busy (Returned 0%Z))
  /\
  (run 1 (mrec stubs sym_package_b_function) busy = mkOutcome busy (Returned tt)
   /\ exists m, run m (resolved stubs PackageB.main) busy
                = mkOutcome busy (Returned 0%Z)).
Proof.
  split; (split; [reflexivity|]).
  - apply (proj1 (main_returns_zero stubs 1 busy busy tt)). reflexivity.
  - apply (proj2 (main_returns_zero stubs 1 busy busy tt)). reflexivity.
Defined.

(* ===================================================================== *)
(** ** Further properties of the two translation units *)
(* ===================================================================== *)

Lemma alternating_map (f : string -> string) (a b : string) (j : nat) :
  List.map f (alternating a b j) = alternating (f a) (f b) j.
Proof.
  revert a b. induction j as [|j IH]; intros a b; cbn; [reflexivity|].
  now rewrite IH.
Qed.

Lemma text_lines_printed {T : Type} (s : symbolE T) (j : nat) :
  text (lines (printed s j)) = printed s j.
Proof. now rewrite lines_printed. Qed.

(** One call is three steps: the event, and the two silent steps of the
    resolution of the next call. *)
Lemma run_printf_tau_tau {R : Type} (fmt : string) (t : itree envE R)
    (n : nat) (w : world) :
  has_conversion fmt = false ->
  run (S (S (S n))) (Vis (Printf fmt) (fun _ => Tau (Tau t))) w
  = run n t (write fmt w).
Proof. intros H. cbn [run observe _observe handle]. now rewrite H. Qed.

Lemma returned_then_zero {R : Type} (t : itree envE R) (n : nat)
    (w w' : world) (r : R) :
  run n t w = mkOutcome w' (Returned r) ->
  exists m, run m (Tau (t ;; Ret 0%Z)) w = mkOutcome w' (Returned 0%Z).
Proof.
  intros H.
  apply (run_bind_returned (fun _ : R => Ret 0%Z)) in H as [p [_ Hrun]].
  exists (S (p + 1)). cbn [run observe _observe].
  rewrite Hrun. reflexivity.
Qed.

(** X1.  In the linked program no call of either function returns to its
    caller: from any calling context the execution is still running after
    any number of steps, and it is the same execution whatever the caller
    would do after the call. *)
Theorem call_never_returns (R : Type) (k k' : unit -> itree unitE R)
    (n : nat) (w : world) :
  (result (run n (resolved link (ITree.bind PackageA.package_a_function k)) w)
   = Running
   /\
   run n (resolved link (ITree.bind PackageA.package_a_function k)) w
   = run n (resolved link (ITree.bind PackageA.package_a_function k')) w)
  /\
  (result (run n (resolved link (ITree.bind PackageB.package_b_function k)) w)
   = Running
   /\
   run n (resolved link (ITree.bind PackageB.package_b_function k)) w
   = run n (resolved link (ITree.bind PackageB.package_b_function k')) w).
Proof.
  change PackageA.package_a_function with (link sym_package_a_function).
  change PackageB.package_b_function with (link sym_package_b_function).
  rewrite !run_call. repeat split; reflexivity.
Qed.

(** X2.  The two programs are mirror images: at every step the lines
    written by the program started at the [main] of package-b.c are those
    written by the program started at the [main] of package-a.c with the
    two messages exchanged, and so for the two functions. *)
Theorem programs_mirror (n : nat) (w1 w2 : world) :
  lines (emitted n main_b w1) = List.map mirror (lines (emitted n main_a w2))
  /\
  lines (emitted n package_b_function w1)
  = List.map mirror (lines (emitted n package_a_function w2)).
Proof.
  unfold main_a, main_b, PackageA.main, PackageB.main.
  unfold package_a_function, package_b_function.
  rewrite !emitted_main, !emitted_function, !lines_printed, !alternating_map.
  split; reflexivity.
Qed.

(** X3.  The output of each function is its own line followed by the
    output of the other function: three steps later, the lines written
    from [package_a_function] are "Package A function called" and then the
    lines written from [package_b_function], and the other way round. *)
Theorem output_recurrence (n : nat) (w w' : world) :
  lines (emitted (n + 3) package_a_function w)
  = "Package A function called" :: lines (emitted n package_b_function w')
  /\
  lines (emitted (n + 3) package_b_function w)
  = "Package B function called" :: lines (emitted n package_a_function w').
Proof.
  unfold package_a_function, package_b_function.
  rewrite !emitted_function, !lines_printed.
  replace (n + 3 + 2) with ((n + 2) + 1 * 3) by lia.
  rewrite Nat.div_add by lia.
  replace ((n + 2) / 3 + 1) with (S ((n + 2) / 3)) by lia.
  split; reflexivity.
Qed.

(** X4.  Standard output never holds a partial line of either program:
    what has been written after any number of steps is exactly its
    complete lines, each with its terminator. *)
Theorem output_is_whole_lines (n : nat) (w : world) :
  text (lines (emitted n main_a w)) = emitted n main_a w /\
  text (lines (emitted n main_b w)) = emitted n main_b w /\
  text (lines (emitted n package_a_function w)) = emitted n package_a_function w /\
  text (lines (emitted n package_b_function w)) = emitted n package_b_function w.
Proof.
  unfold main_a, main_b, PackageA.main, PackageB.main.
  unfold package_a_function, package_b_function.
  rewrite !emitted_main, !emitted_function, !text_lines_printed.
  repeat split; reflexivity.
Qed.

(** X5.  Each file on its own terminates when the other side does: under
    any symbol table that binds [package_a_function] to the definition of
    package-a.c, if the function bound to [package_b_function] returns
    from the world in which "Package A function called" has just been
    written, then the [main] of package-a.c returns 0 in the world that
    function left; and symmetrically for package-b.c. *)
Theorem main_returns_when_callee_returns (table : symbolE ~> itree unitE)
    (n : nat) (w w' : world) :
  (table unit sym_package_a_function = PackageA.package_a_function ->
   run n (mrec table sym_package_b_function)
       (write ("Package A function called" ++ newline) w)
   = mkOutcome w' (Returned tt) ->
   exists m, run m (resolved table PackageA.main) w
             = mkOutcome w' (Returned 0%Z))
  /\
  (table unit sym_package_b_function = PackageB.package_b_function ->
   run n (mrec table sym_package_a_function)
       (write ("Package B function called" ++ newline) w)
   = mkOutcome w' (Returned tt) ->
   exists m, run m (resolved table PackageB.main) w
             = mkOutcome w' (Returned 0%Z)).
Proof.
  split; intros Htable Hrun.
  - assert (Ha : run (S (S (S n))) (mrec table sym_package_a_function) w
                 = mkOutcome w' (Returned tt)).
    { rewrite mrec_resolved, Htable, package_a_function_unfold.
      rewrite run_printf_tau_tau by reflexivity.
      now rewrite <- mrec_resolved. }
    destruct (returned_then_zero _ _ _ _ _ Ha) as [m Hm].
    exists m. unfold PackageA.main. now rewrite main_unfold.
  - assert (Hb : run (S (S (S n))) (mrec table sym_package_b_function) w
                 = mkOutcome w' (Returned tt)).
    { rewrite mrec_resolved, Htable, package_b_function_unfold.
      rewrite run_printf_tau_tau by reflexivity.
      now rewrite <- mrec_resolved. }
    destruct (returned_then_zero _ _ _ _ _ Hb) as [m Hm].
    exists m. unfold PackageB.main. now rewrite main_unfold.
Qed.

Lemma main_returns_when_callee_returns_witness :
  (link_a_only sym_package_a_function = PackageA.package_a_function
   /\ run 1 (mrec link_a_only sym_package_b_function)
          (write ("Package A function called" ++ newline) busy)
      = mkOutcome (write ("Package A function called" ++ newline) busy)
                  (Returned tt)
   /\ exists m, run m (resolved link_a_only PackageA.main) busy
                = mkOutcome (write ("Package A function called" ++ newline) busy)
                            (Returned 0%Z))
  /\
  (link_b_only sym_package_b_function = PackageB.package_b_function
   /\ run 1 (mrec link_b_only sym_package_a_function)
          (write ("Package B function called" ++ newline) busy)
      = mkOutcome (write ("Package B function called" ++ newline) busy)
                  (Returned tt)
   /\ exists m, run m (resolved link_b_only PackageB.main) busy
                = mkOutcome (write ("Package B function called" ++ newline) busy)
                            (Returned 0%Z)).
Proof.
  split; (split; [reflexivity | split; [reflexivity|]]).
  - apply (proj1 (main_returns_when_callee_returns link_a_only 1 busy _));
      reflexivity.
  - apply (proj2 (main_returns_when_callee_returns link_b_only 1 busy _));
      reflexivity.
Defined.

(* ===================================================================== *)
(** ** Executions on the machine with frames *)
(* ===================================================================== *)

Lemma run_frames_eq_itree {R : Type} (n : nat) :
  forall (t1 t2 : itree machineE R) (d : nat) (w : world),
    t1 ≅ t2 -> run_frames n t1 d w = run_frames n t2 d w.
Proof.
  induction n as [|n IH]; intros t1 t2 d w H; [reflexivity|].
  cbn [run_frames]. punfold H. red in H.
  inversion H as [r1 r2 REL | m1 m2 REL | X e k1 k2 REL | |]; try discriminate.
  - now subst.
  - apply IH. now pclearbot.
  - destruct (handle_frames e d w) as [f | [[d' w'] x]]; [reflexivity|].
    apply IH. specialize (REL x). now pclearbot.
Qed.

#[global] Instance run_frames_Proper {R : Type} (n : nat) :
  Proper (eq_itree eq ==> eq ==> eq ==> eq) (@run_frames R n).
Proof. intros t1 t2 H d ? <- w ? <-. now apply run_frames_eq_itree. Qed.

Section Frames.

Context {R : Type}.

Lemma framed_event {T : Type} (e : machineE T)
    (k : T -> itree (symbolE +' machineE) R) :
  interp_mrec (framed link) (Vis (inr1 e) k)
  ≅ Vis e (fun x => Tau (interp_mrec (framed link) (k x))).
Proof. rewrite unfold_interp_mrec. reflexivity. Qed.

Lemma framed_call {T : Type} (s : symbolE T)
    (k : T -> itree (symbolE +' machineE) R) :
  interp_mrec (framed link) (Vis (inl1 s) k)
  ≅ Tau (interp_mrec (framed link) (ITree.bind (in_frame (link s)) k)).
Proof. rewrite unfold_interp_mrec. reflexivity. Qed.

(** A framed body in a calling context: the frame is entered, the body
    runs, the frame is left, the caller goes on. *)
Lemma in_frame_bind {T : Type} (body : itree unitE T)
    (k : T -> itree (symbolE +' machineE) R) :
  ITree.bind (in_frame body) k
  ≅ Vis (inr1 (inl1 Enter))
        (fun _ => ITree.bind (translate lift body)
                    (fun r => Vis (inr1 (inl1 Leave)) (fun _ => k r))).
Proof.
  unfold in_frame. rewrite bind_bind, bind_trigger.
  apply eqit_Vis. intros _. rewrite bind_bind.
  eapply eqit_bind; [reflexivity|]. intros r.
  rewrite bind_bind, bind_trigger.
  apply eqit_Vis. intros _. now rewrite bind_ret_l.
Qed.

End Frames.

Lemma lift_function {T : Type} (s : symbolE T) :
  translate lift (link s)
  ≅ Vis (inr1 (inr1 (Printf (message_of s ++ newline))))
        (fun _ => Vis (inl1 (callee s)) (fun x => Ret x)).
Proof.
  destruct s; cbn [link message_of callee].
  - unfold PackageA.package_a_function, PackageA.package_b_function.
    unfold ITree.trigger.
    rewrite translate_bind, translate_vis, bind_vis.
    apply eqit_Vis. intros z. rewrite translate_ret, bind_ret_l.
    rewrite translate_vis. apply eqit_Vis. intros []. apply translate_ret.
  - unfold PackageB.package_b_function, PackageB.package_a_function.
    unfold ITree.trigger.
    rewrite translate_bind, translate_vis, bind_vis.
    apply eqit_Vis. intros z. rewrite translate_ret, bind_ret_l.
    rewrite translate_vis. apply eqit_Vis. intros []. apply translate_ret.
Qed.

(** Against stubs the stack is balanced: the frames of [main] and of the
    function it calls are entered and left again. *)
Example frames_against_stubs :
  List.map (fun n => fst (run_frames n
                       (interp_mrec (framed stubs) (in_frame PackageA.main))
                       0 fresh))
           [0; 1; 4; 6; 8; 11]
  = [0; 1; 2; 1; 0; 0]
  /\
  snd (run_frames 11 (interp_mrec (framed stubs) (in_frame PackageA.main))
         0 fresh)
  = mkOutcome fresh (Returned 0%Z).
Proof. split; reflexivity. Qed.

Example frames_linked :
  List.map (fun n => fst (run_frames n (with_frames PackageA.main) 0 fresh))
           [0; 1; 4; 9; 14; 19]
  = [0; 1; 2; 3; 4; 5].
Proof. reflexivity. Qed.

(** On the machine with frames a call of [s] enters a frame, prints the
    line of [s] and becomes a call of the other function; the frame it
    entered is left only in the continuation of that call. *)
Lemma framed_in_call_unfold {R T : Type} (s : symbolE T)
    (k : T -> itree (symbolE +' machineE) R) :
  interp_mrec (framed link) (ITree.bind (in_frame (link s)) k)
  ≅ Vis (inl1 Enter) (fun _ => Tau (
      Vis (inr1 (Printf (message_of s ++ newline))) (fun _ => Tau (Tau (
        interp_mrec (framed link)
          (ITree.bind (in_frame (link (callee s)))
             (fun r => Vis (inr1 (inl1 Leave)) (fun _ => k r)))))))).
Proof.
  rewrite in_frame_bind, framed_event.
  apply eqit_Vis. intros _. apply eqit_Tau.
  rewrite lift_function, bind_vis, framed_event.
  apply eqit_Vis. intros z. apply eqit_Tau.
  rewrite bind_vis, framed_call. apply eqit_Tau.
  apply eq_itree_mrec.
  eapply eqit_bind; [reflexivity|]. intros r. now rewrite bind_ret_l.
Qed.

Lemma run_frames_call {R T : Type} (n : nat) :
  forall (s : symbolE T) (k : T -> itree (symbolE +' machineE) R)
         (d : nat) (w : world),
    run_frames n (interp_mrec (framed link) (ITree.bind (in_frame (link s)) k)) d w
    = (d + (n + 4) / 5,
       mkOutcome
         (mkWorld (stdout w ++ printed s ((n + 2) / 5)) (stdin w) (globals w))
         Running).
Proof.
  induction n as [n IH] using lt_wf_ind. intros s k d w.
  assert (W0 : mkWorld (stdout w ++ printed s 0) (stdin w) (globals w) = w).
  { unfold printed. cbn [alternating text]. rewrite append_empty_r.
    now destruct w. }
  destruct n as [|n].
  - change ((0 + 4) / 5) with 0. change ((0 + 2) / 5) with 0.
    rewrite W0, Nat.add_0_r. reflexivity.
  - rewrite framed_in_call_unfold.
    cbn [run_frames observe _observe handle_frames].
    destruct n as [|[|n]].
    + change ((1 + 4) / 5) with 1. change ((1 + 2) / 5) with 0.
      rewrite W0, Nat.add_1_r. reflexivity.
    + change ((2 + 4) / 5) with 1. change ((2 + 2) / 5) with 0.
      rewrite W0, Nat.add_1_r. reflexivity.
    + cbn [run_frames observe _observe handle_frames handle].
      rewrite message_plain.
      destruct n as [|[|n]].
      * change ((3 + 4) / 5) with 1. change ((3 + 2) / 5) with 1.
        rewrite printed_one, Nat.add_1_r. reflexivity.
      * change ((4 + 4) / 5) with 1. change ((4 + 2) / 5) with 1.
        rewrite printed_one, Nat.add_1_r. reflexivity.
      * cbn [run_frames observe _observe]. rewrite IH by lia.
        cbn [stdout stdin globals write].
        replace (S (S (S (S (S n)))) + 4) with ((n + 4) + 1 * 5) by lia.
        replace (S (S (S (S (S n)))) + 2) with ((n + 2) + 1 * 5) by lia.
        rewrite !Nat.div_add by lia.
        replace ((n + 2) / 5 + 1) with (S ((n + 2) / 5)) by lia.
        rewrite printed_succ, append_assoc.
        f_equal. lia.
Qed.

(** A program on the machine with frames: the frame of [main], the call,
    and then the execution of the function called. *)
Lemma lift_main (s : symbolE unit) :
  translate lift (trigger s ;; Ret 0%Z) ≅ Vis (inl1 s) (fun _ => Ret 0%Z).
Proof.
  unfold ITree.trigger.
  rewrite translate_bind, translate_vis, bind_vis.
  apply eqit_Vis. intros [].
  now rewrite translate_ret, bind_ret_l, translate_ret.
Qed.

Lemma with_frames_main_unfold (s : symbolE unit) :
  with_frames (trigger s ;; Ret 0%Z)
  ≅ Vis (inl1 Enter) (fun _ => Tau (Tau (
      interp_mrec (framed link)
        (ITree.bind (in_frame (link s))
           (fun _ => Vis (inr1 (inl1 Leave)) (fun _ => Ret 0%Z)))))).
Proof.
  unfold with_frames.
  rewrite <- (bind_ret_r (in_frame _)), in_frame_bind, framed_event.
  apply eqit_Vis. intros _. apply eqit_Tau.
  rewrite lift_main, bind_vis, framed_call.
  apply eqit_Tau. apply eq_itree_mrec.
  eapply eqit_bind; [reflexivity|]. intros [].
  now rewrite bind_ret_l.
Qed.

Lemma run_frames_main (s : symbolE unit) (n d : nat) (w : world) :
  run_frames n (with_frames (trigger s ;; Ret 0%Z)) d w
  = (d + Nat.min n 1 + (n + 1) / 5,
     mkOutcome
       (mkWorld (stdout w ++ printed s ((n - 1) / 5)) (stdin w) (globals w))
       Running).
Proof.
  assert (W0 : mkWorld (stdout w ++ printed s 0) (stdin w) (globals w) = w).
  { unfold printed. cbn [alternating text]. rewrite append_empty_r.
    now destruct w. }
  destruct n as [|[|[|n]]].
  - change ((0 - 1) / 5) with 0. change ((0 + 1) / 5) with 0.
    cbn [run_frames Nat.min]. rewrite W0. f_equal. lia.
  - change ((1 - 1) / 5) with 0. change ((1 + 1) / 5) with 0.
    rewrite with_frames_main_unfold.
    cbn [run_frames observe _observe handle_frames Nat.min].
    rewrite W0. f_equal. lia.
  - change ((2 - 1) / 5) with 0. change ((2 + 1) / 5) with 0.
    rewrite with_frames_main_unfold.
    cbn [run_frames observe _observe handle_frames Nat.min].
    rewrite W0. f_equal. lia.
  - rewrite with_frames_main_unfold.
    cbn [run_frames observe _observe handle_frames].
    rewrite run_frames_call.
    replace (S (S (S n)) - 1) with (n + 2) by lia.
    replace (S (S (S n)) + 1) with (n + 4) by lia.
    cbn [Nat.min]. f_equal. lia.
Qed.

Lemma emitted_frames_main (s : symbolE unit) (n d : nat) (w : world) :
  emitted_frames n (with_frames (trigger s ;; Ret 0%Z)) d w
  = printed s ((n - 1) / 5).
Proof. unfold emitted_frames. rewrite run_frames_main. apply skip_append. Qed.

(** X6.  On the machine that shows its call frames neither program ever
    leaves a frame.  After any number of steps the execution is in a state
    the machine without frames reaches too; the stack is at least as deep
    as at the start plus one frame for every line written; one step more
    never makes it shallower; and its depth exceeds every bound. *)
Theorem call_stack_grows (d : nat) (w : world) :
  (forall n,
      (exists m, snd (run_frames n (with_frames PackageA.main) d w)
                 = run m main_a w) /\
      (exists m, snd (run_frames n (with_frames PackageB.main) d w)
                 = run m main_b w) /\
      (d + List.length (lines (emitted_frames n (with_frames PackageA.main) d w))
       <= fst (run_frames n (with_frames PackageA.main) d w)) /\
      (d + List.length (lines (emitted_frames n (with_frames PackageB.main) d w))
       <= fst (run_frames n (with_frames PackageB.main) d w)) /\
      (fst (run_frames n (with_frames PackageA.main) d w)
       <= fst (run_frames (S n) (with_frames PackageA.main) d w)) /\
      (fst (run_frames n (with_frames PackageB.main) d w)
       <= fst (run_frames (S n) (with_frames PackageB.main) d w)))
  /\
  (forall bound,
      exists n,
        (bound <= fst (run_frames n (with_frames PackageA.main) d w)) /\
        (bound <= fst (run_frames n (with_frames PackageB.main) d w))).
Proof.
  unfold PackageA.main, PackageB.main.
  split.
  - intros n.
    assert (Hlines : (n - 1) / 5 <= Nat.min n 1 + (n + 1) / 5).
    { transitivity ((n + 1) / 5); [|lia].
      apply Nat.Div0.div_le_mono. lia. }
    assert (Hstep : Nat.min n 1 + (n + 1) / 5
                    <= Nat.min (S n) 1 + (S n + 1) / 5).
    { apply Nat.add_le_mono; [lia|]. apply Nat.Div0.div_le_mono. lia. }
    assert (Hm : (3 * ((n - 1) / 5) + 1) / 3 = (n - 1) / 5).
    { replace (3 * ((n - 1) / 5) + 1) with (1 + (n - 1) / 5 * 3) by lia.
      now rewrite Nat.div_add by lia. }
    rewrite !emitted_frames_main, !run_frames_main, !lines_printed,
      !alternating_length.
    cbn [fst snd].
    repeat split; try lia.
    + exists (3 * ((n - 1) / 5)).
      unfold main_a, PackageA.main. now rewrite run_main, Hm.
    + exists (3 * ((n - 1) / 5)).
      unfold main_b, PackageB.main. now rewrite run_main, Hm.
  - intros bound. exists (5 * bound).
    rewrite !run_frames_main. cbn [fst].
    assert (bound <= (5 * bound + 1) / 5); [|lia].
    replace (5 * bound + 1) with (1 + bound * 5) by lia.
    rewrite Nat.div_add by lia. cbn. lia.
Qed.
